(** * PKCS#7 padding ([pkcs7.go]): a shallow embedding and its properties

    The package has two functions over byte slices, [Pad] and [Unpad].
    Both return a pair [([]byte, error)] of which exactly one component is
    non-nil; Go can in addition stop a call with a run-time panic (index or
    slice bounds out of range, division by zero, [bytes.Repeat] with a
    negative count).  The three endings are kept apart in [outcome]. *)

From Stdlib Require Import ZArith List Bool Lia.
From Stdlib Require Import Strings.String Strings.Byte.
Import ListNotations.

#[local] Open Scope Z_scope.

(** ** Go values *)

(** A [[]byte] is a list of [Byte.byte]; an [error] made by [errors.New]
    is its message text. *)
Definition bytes := list byte.

Inductive outcome (A : Type) : Type :=
| Ret (a : A)          (* [return a, nil] *)
| Fail (msg : string)  (* [return nil, errors.New(msg)] *)
| Panic.               (* run-time panic *)

Arguments Ret {A} a.
Arguments Fail {A} msg.
Arguments Panic {A}.

Definition bind {A B} (m : outcome A) (k : A -> outcome B) : outcome B :=
  match m with
  | Ret a => k a
  | Fail msg => Fail msg
  | Panic => Panic
  end.

Notation "x <- m ;; k" := (bind m (fun x => k))
  (at level 61, m at next level, right associativity).

(** *** [int]: 64-bit two's complement *)

Definition min_int : Z := - 2 ^ 63.
Definition max_int : Z := 2 ^ 63 - 1.

Definition wrap_int (z : Z) : Z := (z + 2 ^ 63) mod 2 ^ 64 - 2 ^ 63.

Definition int_sub (a b : Z) : Z := wrap_int (a - b).

(** [a % b]: the remainder has the sign of the dividend; a zero divisor
    panics. *)
Definition int_rem (a b : Z) : outcome Z :=
  if b =? 0 then Panic else Ret (wrap_int (Z.rem a b)).

(** *** [byte] conversions *)

(** [int(b)]: zero extension. *)
Definition int_of_byte (b : byte) : Z := Z.of_N (Byte.to_N b).

(** [byte(n)]: the low eight bits of [n]. *)
Definition byte_of_int (n : Z) : byte :=
  match Byte.of_N (Z.to_N (n mod 256)) with
  | Some b => b
  | None => x00
  end.

(** *** Slices *)

Definition len (s : bytes) : Z := Z.of_nat (List.length s).

(** Every slice of the program has a length that is an [int]. *)
Definition is_slice (s : bytes) : Prop := len s <= max_int.

(** [s[i]] *)
Definition index (s : bytes) (i : Z) : outcome byte :=
  if (0 <=? i) && (i <? len s) then
    match nth_error s (Z.to_nat i) with
    | Some b => Ret b
    | None => Panic
    end
  else Panic.

(** [s[lo:]] *)
Definition slice_from (s : bytes) (lo : Z) : outcome bytes :=
  if (0 <=? lo) && (lo <=? len s) then Ret (skipn (Z.to_nat lo) s) else Panic.

(** [s[:hi]].  Go allows [hi] up to the capacity of [s]; the capacity is not
    part of the model, and the bound used here is the length, so the model
    panics at least as often as the program. *)
Definition slice_to (s : bytes) (hi : Z) : outcome bytes :=
  if (0 <=? hi) && (hi <=? len s) then Ret (firstn (Z.to_nat hi) s) else Panic.

(** [bytes.Repeat(b, count)] *)
Definition Repeat (b : bytes) (count : Z) : outcome bytes :=
  if count <? 0 then Panic else Ret (List.concat (repeat b (Z.to_nat count))).

(** [for i := 0; i < n; i++ { body }] where the body assigns neither [i] nor
    [n]: the body runs at [i = 0, 1, ..., n-1] and the loop stops at the
    first body that returns or panics. *)
Fixpoint for_from (i : Z) (count : nat) (body : Z -> outcome unit)
  : outcome unit :=
  match count with
  | O => Ret tt
  | S count' => _ <- body i ;; for_from (i + 1) count' body
  end.

Definition for_lt (n : Z) (body : Z -> outcome unit) : outcome unit :=
  for_from 0 (Z.to_nat n) body.

(** ** The package *)

Definition errBlockSize : string :=
  "pkcs7: block size must be between 1 and 255 inclusive"%string.
Definition errEmpty : string :=
  "pkcs7: source must not be empty slice"%string.
Definition errNoMatch : string :=
  "pkcs7: invalid padding (last byte does not match padding)"%string.
Definition errTooLarge : string :=
  "pkcs7: invalid padding (last byte is larger than total length)"%string.

(** [append(src, padding...)] is the concatenation; whether Go stores it in
    spare capacity of [src] or in a new array is not part of the model. *)
Definition Pad (src : bytes) (blockSize : Z) : outcome bytes :=
  if (blockSize <? 1) || (blockSize >? 255) then Fail errBlockSize
  else
    r <- int_rem (len src) blockSize ;;
    let padLen := int_sub blockSize r in
    let padding := [byte_of_int padLen] in
    padding <- Repeat padding padLen ;;
    Ret (src ++ padding).

Definition Unpad (src : bytes) : outcome bytes :=
  let length := len src in
  if length <=? 0 then Fail errEmpty
  else
    last <- index src (int_sub length 1) ;;
    let padLen := int_of_byte last in
    if padLen =? 0 then Fail errNoMatch
    else if padLen >? length then Fail errTooLarge
    else
      let origLen := int_sub length padLen in
      padding <- slice_from src origLen ;;
      _ <- for_lt padLen (fun i =>
             b <- index padding i ;;
             if negb (Byte.eqb b (byte_of_int padLen))
             then Fail errNoMatch
             else Ret tt) ;;
      slice_to src origLen.

(** [strings.Contains(s, substr)] *)
Fixpoint Contains (s substr : string) : bool :=
  String.prefix substr s ||
  match s with
  | EmptyString => false
  | String _ s' => Contains s' substr
  end.

(** The package has no error types; its tests classify a failure by
    [strings.Contains(err.Error(), v.errorString)], and the text they use
    for a padding failure is ["pkcs7: invalid padding"]. *)
Definition invalidPaddingText : string := "pkcs7: invalid padding".

Definition isInvalidPadding {A} (o : outcome A) : bool :=
  match o with
  | Fail msg => Contains msg invalidPaddingText
  | _ => false
  end.

(** ** Vocabulary of the properties *)

(** The value of the marker: the last byte of a slice, as an [int]. *)
Definition marker (padded : bytes) : Z := int_of_byte (List.last padded x00).

(** The last [n] bytes of a slice that has at least [n] bytes. *)
Definition last_bytes (n : Z) (padded : bytes) : bytes :=
  skipn (Z.to_nat (len padded - n)) padded.

(** The first [len padded - n] bytes of a slice. *)
Definition first_bytes (n : Z) (padded : bytes) : bytes :=
  firstn (Z.to_nat (len padded - n)) padded.

(** The three ways a non-empty slice can carry a malformed padding. *)
Definition malformed (padded : bytes) : Prop :=
  let n := marker padded in
  n = 0 \/ n > len padded \/
  List.Exists (fun b => int_of_byte b <> n) (last_bytes n padded).

(** Uniform padding failures: any two failures of [Unpad] that are padding
    errors carry the same message text. *)
Definition uniform_padding_error : Prop :=
  forall (p q : bytes) (m1 m2 : string),
    Unpad p = Fail m1 -> isInvalidPadding (Unpad p) = true ->
    Unpad q = Fail m2 -> isInvalidPadding (Unpad q) = true ->
    m1 = m2.

(** [p[j] = b] for an index [j] of [p]: the slice with one byte replaced. *)
Definition set_byte (p : bytes) (j : Z) (b : byte) : bytes :=
  firstn (Z.to_nat j) p ++ b :: skipn (Z.to_nat (j + 1)) p.

(** ** The package's tests ([TestPad], [TestUnpad] over [padTests]) *)

(** A [nil] slice of the table is [None]; [[]byte{}] is [Some []]. *)
Record testVector := {
  blockSize : Z;
  input : option bytes;
  output : option bytes;
  errorString : string
}.

Definition padTests : list testVector := [
  (* Pads buffers. *)
  {| blockSize := 16;
     input := Some [xde; xad; xbe; xef; xde; xad; xbe; xef;
                    xde; xad; xbe; xef];
     output := Some [xde; xad; xbe; xef; xde; xad; xbe; xef;
                     xde; xad; xbe; xef; x04; x04; x04; x04];
     errorString := "" |};
  (* Pads empty buffers. *)
  {| blockSize := 16;
     input := Some [];
     output := Some [x10; x10; x10; x10; x10; x10; x10; x10;
                     x10; x10; x10; x10; x10; x10; x10; x10];
     errorString := "" |};
  (* Pads buffers larger than the block size. *)
  {| blockSize := 16;
     input := Some [xde; xad; xbe; xef; xde; xad; xbe; xef;
                    xde; xad; xbe; xef; xde; xad; xbe; xef;
                    xde; xad; xbe; xef];
     output := Some [xde; xad; xbe; xef; xde; xad; xbe; xef;
                     xde; xad; xbe; xef; xde; xad; xbe; xef;
                     xde; xad; xbe; xef; x0c; x0c; x0c; x0c;
                     x0c; x0c; x0c; x0c; x0c; x0c; x0c; x0c];
     errorString := "" |};
  (* Error when block size is more than 255 *)
  {| blockSize := 256;
     input := Some [x01; x02; x03; x04];
     output := None;
     errorString := "pkcs7: block size must be between 1 and 255 inclusive" |};
  (* (Pad only) Error when block size is zero *)
  {| blockSize := 0;
     input := Some [x01; x02; x03; x04];
     output := None;
     errorString := "pkcs7: block size must be between 1 and 255 inclusive" |};
  (* (Unpad only) Error when padded block has a final zero bit *)
  {| blockSize := 4;
     input := None;
     output := Some [x01; x02; x03; x00];
     errorString := "pkcs7: invalid padding" |}
].

(** A call [t.Errorf(format, args...)], kept as its format and arguments;
    a test fails when it has made one. *)
Inductive arg : Type :=
| ArgInt (n : Z)
| ArgString (s : string)
| ArgError (msg : string)
| ArgBytes (b : bytes).

Inductive report : Type :=
| Errorf (format : string) (args : list arg).

(** What an iteration does next: go on with the loop, or [return]. *)
Inductive flow : Type := Continue | Return.

(** The pair [(o, err)] of a call: [o] is [nil] when [err] is not. *)
Definition results (r : outcome bytes) : outcome (bytes * option string) :=
  match r with
  | Ret o => Ret (o, None)
  | Fail msg => Ret ([], Some msg)
  | Panic => Panic
  end.

(** [bytes.Equal(a, b)]; a [nil] slice equals an empty one. *)
Fixpoint Equal (a b : bytes) : bool :=
  match a, b with
  | [], [] => true
  | x :: a', y :: b' => Byte.eqb x y && Equal a' b'
  | _, _ => false
  end.

(** [for i, v := range vs { body }] with a body that can [return]. *)
Fixpoint range_from (i : Z) (vs : list testVector)
    (body : Z -> testVector -> outcome (list report * flow))
  : outcome (list report) :=
  match vs with
  | [] => Ret []
  | v :: vs' =>
      r <- body i v ;;
      match snd r with
      | Return => Ret (fst r)
      | Continue => rest <- range_from (i + 1) vs' body ;; Ret (fst r ++ rest)
      end
  end.

(** The [if err != nil { ... }] block, the same in both tests. *)
Definition check_error (err : option string) (v : testVector)
  : list report * flow :=
  match err with
  | Some e =>
      if (errorString v =? "")%string then
        ([Errorf "Padding caused error: %v" [ArgError e]], Continue)
      else if negb (Contains e (errorString v)) then
        ([Errorf "Unexpected error: we expected %s but we received %v"
            [ArgString (errorString v); ArgError e]], Return)
      else ([], Continue)
  | None => ([], Continue)
  end.

Definition TestPad : outcome (list report) :=
  range_from 0 padTests (fun i v =>
    match input v with
    | Some inp =>
        r <- results (Pad inp (blockSize v)) ;;
        let (o, err) := r in
        let (log, next) := check_error err v in
        match next with
        | Return => Ret (log, Return)
        | Continue =>
            match output v with
            | Some out =>
                if negb (Equal o out) then
                  Ret (log ++ [Errorf "Pad %d: expected %x, got %x"
                                 [ArgInt i; ArgBytes out; ArgBytes o]],
                       Continue)
                else Ret (log, Continue)
            | None => Ret (log, Continue)
            end
        end
    | None => Ret ([], Continue)
    end).

Definition TestUnpad : outcome (list report) :=
  range_from 0 padTests (fun i v =>
    match output v with
    | Some out =>
        r <- results (Unpad out) ;;
        let (o, err) := r in
        let (log, next) := check_error err v in
        match next with
        | Return => Ret (log, Return)
        | Continue =>
            match input v with
            | Some inp =>
                if negb (Equal o inp) then
                  Ret (log ++ [Errorf "Unpad %d: expected %x, got %x"
                                 [ArgInt i; ArgBytes out; ArgBytes o]],
                       Continue)
                else Ret (log, Continue)
            | None => Ret (log, Continue)
            end
        end
    | None => Ret ([], Continue)
    end).

(** ** The documented example and the vectors of the package's tests *)

Example Pad_doc_example :
  Pad [xde; xad; xbe; xef] 8 = Ret [xde; xad; xbe; xef; x04; x04; x04; x04].
Proof. reflexivity. Qed.

Example Unpad_doc_example :
  Unpad [xde; xad; xbe; xef; x04; x04; x04; x04] = Ret [xde; xad; xbe; xef].
Proof. reflexivity. Qed.

Example Pad_vector_1 :
  Pad [xde; xad; xbe; xef; xde; xad; xbe; xef; xde; xad; xbe; xef] 16
  = Ret [xde; xad; xbe; xef; xde; xad; xbe; xef;
         xde; xad; xbe; xef; x04; x04; x04; x04].
Proof. reflexivity. Qed.

Example Pad_vector_3 :
  Pad [xde; xad; xbe; xef; xde; xad; xbe; xef;
       xde; xad; xbe; xef; xde; xad; xbe; xef;
       xde; xad; xbe; xef] 16
  = Ret [xde; xad; xbe; xef; xde; xad; xbe; xef;
         xde; xad; xbe; xef; xde; xad; xbe; xef;
         xde; xad; xbe; xef; x0c; x0c; x0c; x0c;
         x0c; x0c; x0c; x0c; x0c; x0c; x0c; x0c].
Proof. reflexivity. Qed.

Example Pad_vector_4 : Pad [x01; x02; x03; x04] 256 = Fail errBlockSize.
Proof. reflexivity. Qed.

Example Pad_vector_5 : Pad [x01; x02; x03; x04] 0 = Fail errBlockSize.
Proof. reflexivity. Qed.

Example Unpad_vector_6 :
  Unpad [x01; x02; x03; x00] = Fail errNoMatch /\
  isInvalidPadding (Unpad [x01; x02; x03; x00]) = true.
Proof. split; reflexivity. Qed.

Example Unpad_too_large : Unpad [x01; x02; x09] = Fail errTooLarge.
Proof. reflexivity. Qed.

Example Unpad_tampered :
  Unpad [xde; xad; x03; x02; x03] = Fail errNoMatch.
Proof. reflexivity. Qed.

Example Unpad_nil : Unpad [] = Fail errEmpty.
Proof. reflexivity. Qed.

Example other_errors_not_padding :
  isInvalidPadding (Unpad []) = false /\
  isInvalidPadding (Pad [] 0) = false.
Proof. split; reflexivity. Qed.

(** ** Proof steps used throughout *)

(** Bounds of [int] as numbers, for [lia]. *)
Ltac int_bounds := unfold is_slice, min_int, max_int in *.

(** A concrete list is a slice. *)
Ltac small_slice := unfold is_slice, max_int, len; simpl; lia.

(** Replace a guard by the boolean that [lia] shows it equal to. *)
Tactic Notation "settle" uconstr(g) "as" constr(v) :=
  replace g with v by lia.

(** ** Integers and bytes *)

Lemma wrap_int_small z : min_int <= z <= max_int -> wrap_int z = z.
Proof.
  unfold min_int, max_int, wrap_int. intros H.
  rewrite Z.mod_small; lia.
Qed.

Lemma wrap_int_range z : min_int <= wrap_int z <= max_int.
Proof.
  unfold min_int, max_int, wrap_int.
  pose proof (Z.mod_pos_bound (z + 2 ^ 63) (2 ^ 64) ltac:(lia)). lia.
Qed.

Lemma int_of_byte_range b : 0 <= int_of_byte b < 256.
Proof.
  unfold int_of_byte. pose proof (Byte.to_N_bounded b). lia.
Qed.

Lemma byte_of_int_of_byte b : byte_of_int (int_of_byte b) = b.
Proof.
  unfold byte_of_int. pose proof (int_of_byte_range b) as Hb.
  rewrite Z.mod_small by lia. unfold int_of_byte.
  rewrite N2Z.id, Byte.of_to_N. reflexivity.
Qed.

Lemma int_of_byte_of_int n : 0 <= n < 256 -> int_of_byte (byte_of_int n) = n.
Proof.
  intros Hn. unfold byte_of_int. rewrite Z.mod_small by lia.
  destruct (Byte.of_N (Z.to_N n)) as [b|] eqn:E.
  - apply Byte.to_of_N in E. unfold int_of_byte. rewrite E. lia.
  - apply Byte.of_N_None_iff in E. lia.
Qed.

Lemma byte_eqb_refl b : Byte.eqb b b = true.
Proof. now apply Byte.byte_dec_lb. Qed.

Lemma byte_eqb_int a n :
  0 <= n < 256 -> Byte.eqb a (byte_of_int n) = (int_of_byte a =? n).
Proof.
  intros Hn. destruct (int_of_byte a =? n) eqn:E.
  - apply Z.eqb_eq in E. subst n. rewrite byte_of_int_of_byte.
    apply byte_eqb_refl.
  - apply Z.eqb_neq in E. destruct (Byte.eqb a (byte_of_int n)) eqn:F; auto.
    apply Byte.byte_dec_bl in F. subst a.
    now rewrite int_of_byte_of_int in E.
Qed.

(** ** Slices and the counted loop *)

Lemma len_nonneg s : 0 <= len s.
Proof. unfold len. lia. Qed.

Lemma len_app s t : len (s ++ t) = len s + len t.
Proof. unfold len. rewrite length_app. lia. Qed.

Lemma len_repeat (b : byte) k : len (repeat b k) = Z.of_nat k.
Proof. unfold len. now rewrite repeat_length. Qed.

Lemma len_nil_iff s : len s <= 0 <-> s = [].
Proof.
  unfold len. destruct s; simpl; split; intros H; try easy; lia.
Qed.

Lemma concat_repeat_singleton (b : byte) k :
  List.concat (repeat [b] k) = repeat b k.
Proof. induction k; simpl; congruence. Qed.

Lemma skipn_cons_nth_error (s : bytes) : forall k b,
  nth_error s k = Some b -> skipn k s = b :: skipn (S k) s.
Proof.
  induction s as [|a s IH]; intros [|k] b H; simpl in *; try discriminate.
  - now inversion H.
  - now apply IH.
Qed.

Lemma index_in_bounds s i :
  0 <= i < len s ->
  exists b, nth_error s (Z.to_nat i) = Some b /\ index s i = Ret b.
Proof.
  intros Hi. unfold index.
  settle ((0 <=? i) && (i <? len s)) as true.
  destruct (nth_error s (Z.to_nat i)) as [b|] eqn:E.
  - now exists b.
  - apply nth_error_None in E. unfold len in Hi. lia.
Qed.

Lemma index_last s :
  0 < len s -> index s (len s - 1) = Ret (List.last s x00).
Proof.
  intros Hs. destruct (index_in_bounds s (len s - 1)) as (b & Hb & ->); [lia|].
  f_equal.
  destruct (exists_last (l := s)) as (s' & a & ->).
  { intros ->. discriminate Hs. }
  rewrite last_last. unfold len in Hb. rewrite length_app in Hb. simpl in Hb.
  rewrite nth_error_app2 in Hb by lia.
  replace (_ - _)%nat with 0%nat in Hb by lia. simpl in Hb. congruence.
Qed.

Lemma slice_from_in_bounds s lo :
  0 <= lo <= len s -> slice_from s lo = Ret (skipn (Z.to_nat lo) s).
Proof.
  intros H. unfold slice_from.
  settle ((0 <=? lo) && (lo <=? len s)) as true.
  reflexivity.
Qed.

Lemma slice_to_in_bounds s hi :
  0 <= hi <= len s -> slice_to s hi = Ret (firstn (Z.to_nat hi) s).
Proof.
  intros H. unfold slice_to.
  settle ((0 <=? hi) && (hi <=? len s)) as true.
  reflexivity.
Qed.

(** The verification loop of [Unpad], started at any index: it succeeds
    when the [count] bytes from [i] on all equal [c], and stops with the
    message [e] at the first byte that does not. *)
Lemma check_loop (p : bytes) (c : byte) (e : string) : forall count i,
  0 <= i -> i + Z.of_nat count <= len p ->
  for_from i count
    (fun j => b <- index p j ;;
              if negb (Byte.eqb b c) then Fail e else Ret tt)
  = if forallb (fun b => Byte.eqb b c) (firstn count (skipn (Z.to_nat i) p))
    then Ret tt else Fail e.
Proof.
  induction count as [|count IH]; intros i Hi Hlen; [reflexivity|].
  cbn [for_from].
  destruct (index_in_bounds p i) as (b & Hb & ->); [lia|].
  rewrite (skipn_cons_nth_error _ _ _ Hb). cbn [bind firstn forallb].
  destruct (Byte.eqb b c); cbn [negb andb]; [|reflexivity].
  rewrite IH by lia. now rewrite Z2Nat.inj_add, Nat.add_1_r by lia.
Qed.

(** The loop runs its body at the indices [i, ..., i + count - 1] and at
    no other: two bodies that agree there give the same loop. *)
Lemma for_from_ext (body body' : Z -> outcome unit) : forall count i,
  (forall j, i <= j < i + Z.of_nat count -> body j = body' j) ->
  for_from i count body = for_from i count body'.
Proof.
  induction count as [|count IH]; intros i H; [reflexivity|].
  cbn [for_from]. rewrite (H i) by lia.
  destruct (body' i) as [[]| |]; cbn [bind]; try reflexivity.
  apply IH. intros j Hj. apply H. lia.
Qed.

(** ** What the two functions compute *)

Lemma padLen_range (n blockSize : Z) :
  0 <= n -> 1 <= blockSize ->
  1 <= blockSize - n mod blockSize <= blockSize.
Proof.
  intros Hn Hb. pose proof (Z.mod_pos_bound n blockSize ltac:(lia)). lia.
Qed.

Lemma Pad_in_range (src : bytes) (blockSize : Z) :
  1 <= blockSize <= 255 ->
  Pad src blockSize =
  Ret (src ++ repeat (byte_of_int (blockSize - len src mod blockSize))
                     (Z.to_nat (blockSize - len src mod blockSize))).
Proof.
  intros Hb. pose proof (len_nonneg src) as Hs.
  pose proof (padLen_range (len src) blockSize Hs ltac:(lia)) as Hk.
  unfold Pad, int_rem, int_sub, Repeat.
  settle ((blockSize <? 1) || (blockSize >? 255)) as false.
  settle (blockSize =? 0) as false.
  rewrite Z.rem_mod_nonneg by lia. cbn [bind].
  pose proof (Z.mod_pos_bound (len src) blockSize ltac:(lia)) as Hm.
  rewrite (wrap_int_small (len src mod blockSize))
    by (int_bounds; lia).
  rewrite wrap_int_small by (int_bounds; lia).
  settle (_ <? 0) as false.
  cbn [bind]. now rewrite concat_repeat_singleton.
Qed.

Lemma Pad_out_of_range (src : bytes) (blockSize : Z) :
  blockSize < 1 \/ blockSize > 255 -> Pad src blockSize = Fail errBlockSize.
Proof.
  intros Hb. unfold Pad.
  settle ((blockSize <? 1) || (blockSize >? 255)) as true.
  reflexivity.
Qed.

Lemma marker_range (src : bytes) : 0 <= marker src < 256.
Proof. apply int_of_byte_range. Qed.

Lemma len_last_bytes n src :
  0 <= n <= len src -> len (last_bytes n src) = n.
Proof.
  intros Hn. unfold last_bytes, len in *. rewrite length_skipn. lia.
Qed.

Lemma Unpad_nonempty (src : bytes) :
  0 < len src -> is_slice src ->
  Unpad src =
  let n := marker src in
  if n =? 0 then Fail errNoMatch
  else if n >? len src then Fail errTooLarge
  else if forallb (fun b => Byte.eqb b (byte_of_int n)) (last_bytes n src)
       then Ret (first_bytes n src)
       else Fail errNoMatch.
Proof.
  intros Hpos Hmax. unfold is_slice in Hmax.
  pose proof (marker_range src) as Hn.
  unfold Unpad, int_sub. cbv zeta.
  settle (len src <=? 0) as false.
  rewrite wrap_int_small by (int_bounds; lia).
  rewrite index_last by lia. cbn [bind]. fold (marker src).
  destruct (marker src =? 0) eqn:E0; [reflexivity|].
  destruct (marker src >? len src) eqn:E1; [reflexivity|].
  assert (1 <= marker src <= len src) as Hk by lia.
  rewrite wrap_int_small by (int_bounds; lia).
  rewrite slice_from_in_bounds by lia. cbn [bind].
  fold (last_bytes (marker src) src).
  pose proof (len_last_bytes (marker src) src ltac:(lia)) as Hl.
  unfold for_lt. rewrite check_loop by (try rewrite Hl; lia).
  change (Z.to_nat 0) with 0%nat. rewrite skipn_O.
  rewrite firstn_all2 by (unfold len in Hl; lia).
  destruct (forallb _ _); cbn [bind]; [|reflexivity].
  now rewrite slice_to_in_bounds by lia.
Qed.

(** A slice that ends in [k] copies of the byte [k] unpads to what comes
    before them. *)
Lemma last_repeat (s : bytes) (b : byte) (k : nat) :
  (0 < k)%nat -> List.last (s ++ repeat b k) x00 = b.
Proof.
  destruct k as [|k]; [lia|]. intros _.
  change (repeat b (S k)) with (b :: repeat b k).
  rewrite repeat_cons, app_assoc. apply last_last.
Qed.

Lemma forallb_repeat (b : byte) (k : nat) :
  forallb (fun a => Byte.eqb a b) (repeat b k) = true.
Proof.
  induction k; simpl; [reflexivity|]. now rewrite byte_eqb_refl.
Qed.

Lemma Unpad_suffix (s : bytes) (k : Z) :
  1 <= k <= 255 ->
  is_slice (s ++ repeat (byte_of_int k) (Z.to_nat k)) ->
  Unpad (s ++ repeat (byte_of_int k) (Z.to_nat k)) = Ret s.
Proof.
  intros Hk Hmax. pose proof (len_nonneg s) as Hs.
  set (p := s ++ repeat (byte_of_int k) (Z.to_nat k)) in *.
  assert (len p = len s + k) as Hp
    by (unfold p; rewrite len_app, len_repeat; lia).
  assert (marker p = k) as Hm.
  { unfold marker, p. rewrite last_repeat by lia.
    apply int_of_byte_of_int. lia. }
  rewrite Unpad_nonempty by (auto; lia). cbv zeta. rewrite Hm.
  settle (k =? 0) as false.
  settle (k >? len p) as false.
  unfold last_bytes, first_bytes. rewrite Hp.
  replace (Z.to_nat (len s + k - k)) with (List.length s)
    by (unfold len; lia).
  unfold p. rewrite skipn_app, skipn_all, Nat.sub_diag, skipn_O.
  rewrite firstn_app, firstn_all, Nat.sub_diag, firstn_O, app_nil_r.
  cbn [app]. now rewrite forallb_repeat.
Qed.

Lemma check_false_iff (n : Z) (l : bytes) :
  0 <= n < 256 ->
  forallb (fun b => Byte.eqb b (byte_of_int n)) l = false <->
  List.Exists (fun b => int_of_byte b <> n) l.
Proof.
  intros Hn. induction l as [|a l IH]; cbn [forallb].
  - split; [discriminate|]. intros H. inversion H.
  - rewrite byte_eqb_int by assumption. rewrite Exists_cons.
    destruct (int_of_byte a =? n) eqn:E; cbn [andb].
    + apply Z.eqb_eq in E. rewrite IH. tauto.
    + apply Z.eqb_neq in E. tauto.
Qed.

Lemma malformed_dec (padded : bytes) :
  malformed padded <->
  (if marker padded =? 0 then true
   else if marker padded >? len padded then true
   else negb (forallb (fun b => Byte.eqb b (byte_of_int (marker padded)))
                (last_bytes (marker padded) padded))) = true.
Proof.
  unfold malformed. cbv zeta. pose proof (marker_range padded) as Hn.
  rewrite <- (check_false_iff _ _ Hn).
  destruct (marker padded =? 0) eqn:E0; [split; auto; lia|].
  destruct (marker padded >? len padded) eqn:E1; [split; auto; lia|].
  rewrite negb_true_iff. split; [|auto]. intros [H|[H|H]]; auto; lia.
Qed.

(** ** Properties of [Pad] *)

(** C2 (postcondition of [Pad]): for a block size in [1,255], [Pad] returns
    the source followed by [padLen] copies of the byte whose value is
    [padLen], where [padLen = blockSize - (len(src) mod blockSize)] lies in
    [1, blockSize]; and [Pad({DE,AD,BE,EF}, 8)] is
    [{DE,AD,BE,EF,04,04,04,04}]. *)
Theorem Pad_postcondition :
  (forall (s : bytes) (blockSize : Z),
      1 <= blockSize <= 255 ->
      let padLen := blockSize - len s mod blockSize in
      1 <= padLen <= blockSize /\
      exists b : byte,
        int_of_byte b = padLen /\
        Pad s blockSize = Ret (s ++ repeat b (Z.to_nat padLen))) /\
  Pad [xde; xad; xbe; xef] 8 = Ret [xde; xad; xbe; xef; x04; x04; x04; x04].
Proof.
  split; [|reflexivity].
  intros s blockSize Hb padLen.
  assert (1 <= padLen <= blockSize) as Hp
    by (apply padLen_range; [apply len_nonneg | lia]).
  split; [exact Hp|].
  exists (byte_of_int padLen). split.
  - apply int_of_byte_of_int. lia.
  - now apply Pad_in_range.
Qed.

Lemma Pad_postcondition_witness :
  1 <= 16 - len [x01; x02; x03] mod 16 <= 16 /\
  exists b : byte,
    int_of_byte b = 16 - len [x01; x02; x03] mod 16 /\
    Pad [x01; x02; x03] 16 =
    Ret ([x01; x02; x03] ++
         repeat b (Z.to_nat (16 - len [x01; x02; x03] mod 16))).
Proof. apply (proj1 Pad_postcondition [x01; x02; x03] 16). lia. Defined.

(** C5 (block size check): [Pad] fails with the block-size error exactly
    when [blockSize < 1] or [blockSize > 255], and then returns no slice;
    the sizes 0 and 256 fail and the sizes 1 and 255 succeed, whatever the
    source. *)
Theorem Pad_block_size (s : bytes) (blockSize : Z) :
  (Pad s blockSize = Fail errBlockSize <-> blockSize < 1 \/ blockSize > 255) /\
  (blockSize < 1 \/ blockSize > 255 -> forall out, Pad s blockSize <> Ret out) /\
  Pad s 0 = Fail errBlockSize /\
  Pad s 256 = Fail errBlockSize /\
  (exists out, Pad s 1 = Ret out) /\
  (exists out, Pad s 255 = Ret out).
Proof.
  split; [split|split; [|split; [|split; [|split]]]].
  - intros H. destruct (Z.lt_ge_cases blockSize 1) as [|H1]; [now left|].
    destruct (Z.lt_ge_cases 255 blockSize) as [|H2]; [right; lia|].
    rewrite Pad_in_range in H by lia. discriminate.
  - apply Pad_out_of_range.
  - intros H out. rewrite Pad_out_of_range by assumption. discriminate.
  - apply Pad_out_of_range. lia.
  - apply Pad_out_of_range. lia.
  - eexists. apply Pad_in_range. lia.
  - eexists. apply Pad_in_range. lia.
Qed.

(** C7 (length invariant): for a block size in [1,255] the length of the
    padded slice is a multiple of the block size and strictly greater than
    the length of the source. *)
Theorem Pad_length (s : bytes) (blockSize : Z) :
  1 <= blockSize <= 255 ->
  exists out,
    Pad s blockSize = Ret out /\
    len out mod blockSize = 0 /\
    len out > len s.
Proof.
  intros Hb. eexists. split; [now apply Pad_in_range|].
  pose proof (padLen_range (len s) blockSize (len_nonneg s) ltac:(lia)) as Hp.
  rewrite len_app, len_repeat, Z2Nat.id by lia. split; [|lia].
  pose proof (Z_div_mod_eq_full (len s) blockSize) as Hd.
  replace (len s + (blockSize - len s mod blockSize))
    with ((len s / blockSize + 1) * blockSize) by lia.
  apply Z_mod_mult.
Qed.

Lemma Pad_length_witness :
  exists out,
    Pad [x01; x02; x03; x04] 4 = Ret out /\
    len out mod 4 = 0 /\
    len out > len [x01; x02; x03; x04].
Proof. apply (Pad_length [x01; x02; x03; x04] 4). lia. Defined.

(** C8 (full-block padding): when the length of the source is a multiple of
    a block size in [1,255], [Pad] appends exactly [blockSize] bytes, each of
    value [blockSize]; [Pad({}, 16)] is sixteen bytes [0x10], which [Unpad]
    turns back into the empty slice. *)
Theorem Pad_full_block :
  (forall (s : bytes) (blockSize : Z),
      1 <= blockSize <= 255 ->
      len s mod blockSize = 0 ->
      exists b : byte,
        int_of_byte b = blockSize /\
        Pad s blockSize = Ret (s ++ repeat b (Z.to_nat blockSize))) /\
  Pad [] 16 = Ret (repeat x10 16) /\
  Unpad (repeat x10 16) = Ret [].
Proof.
  split; [|split; reflexivity].
  intros s blockSize Hb Hm. exists (byte_of_int blockSize). split.
  - apply int_of_byte_of_int. lia.
  - rewrite Pad_in_range by assumption. now rewrite Hm, Z.sub_0_r.
Qed.

Lemma Pad_full_block_witness :
  exists b : byte,
    int_of_byte b = 2 /\
    Pad [x0a; x0b; x0c; x0d] 2 = Ret ([x0a; x0b; x0c; x0d] ++ repeat b 2).
Proof.
  apply (proj1 Pad_full_block [x0a; x0b; x0c; x0d] 2); [lia | reflexivity].
Defined.

(** ** Properties of [Unpad] *)

(** C1 (round trip): for a block size in [1,255], [Pad] succeeds and
    [Unpad] of its result succeeds and returns the source.  The padded
    slice has at most [len(s) + blockSize] bytes, and its length is an
    [int]. *)
Theorem Unpad_Pad_roundtrip (s : bytes) (blockSize : Z) :
  1 <= blockSize <= 255 ->
  len s + blockSize <= max_int ->
  exists padded, Pad s blockSize = Ret padded /\ Unpad padded = Ret s.
Proof.
  intros Hb Hmax. eexists. split; [now apply Pad_in_range|].
  pose proof (padLen_range (len s) blockSize (len_nonneg s) ltac:(lia)) as Hp.
  apply Unpad_suffix; [lia|].
  unfold is_slice. rewrite len_app, len_repeat. lia.
Qed.

Lemma Unpad_Pad_roundtrip_witness :
  exists padded,
    Pad [xde; xad; xbe; xef; x00] 3 = Ret padded /\
    Unpad padded = Ret [xde; xad; xbe; xef; x00].
Proof.
  apply (Unpad_Pad_roundtrip [xde; xad; xbe; xef; x00] 3);
    [lia | small_slice].
Defined.

(** What a failure of [Unpad] can say, for any list of bytes. *)
Lemma for_from_Fail (body : Z -> outcome unit) (m : string) : forall count i,
  for_from i count body = Fail m -> exists j, body j = Fail m.
Proof.
  induction count as [|count IH]; intros i H; [discriminate|].
  cbn [for_from] in H. destruct (body i) as [[]|m'|] eqn:E; cbn [bind] in H.
  - now apply IH in H.
  - exists i. congruence.
  - discriminate.
Qed.

Lemma index_not_Fail s i m : index s i <> Fail m.
Proof.
  unfold index. destruct (_ && _); [|discriminate].
  destruct (nth_error _ _); discriminate.
Qed.

Lemma slice_from_not_Fail s lo m : slice_from s lo <> Fail m.
Proof. unfold slice_from. destruct (_ && _); discriminate. Qed.

Lemma slice_to_not_Fail s hi m : slice_to s hi <> Fail m.
Proof. unfold slice_to. destruct (_ && _); discriminate. Qed.

Lemma Unpad_Fail_cases (src : bytes) (m : string) :
  Unpad src = Fail m ->
  (src = [] /\ m = errEmpty) \/
  (src <> [] /\ (m = errNoMatch \/ m = errTooLarge)).
Proof.
  unfold Unpad. cbv zeta. intros H.
  destruct (len src <=? 0) eqn:E.
  { left. split; [apply len_nil_iff; lia | congruence]. }
  right. split; [rewrite <- len_nil_iff; lia|].
  destruct (index src _) as [lastb|m'|] eqn:Ei; cbn [bind] in H;
    [|now apply index_not_Fail in Ei|discriminate].
  destruct (_ =? 0); [left; congruence|].
  destruct (_ >? _); [right; congruence|].
  destruct (slice_from src _) as [padding|m'|] eqn:Es; cbn [bind] in H;
    [|now apply slice_from_not_Fail in Es|discriminate].
  destruct (for_lt _ _) as [[]|m'|] eqn:El; cbn [bind] in H;
    [now apply slice_to_not_Fail in H| |discriminate].
  injection H as ->. apply for_from_Fail in El as (j & Hj).
  destruct (index padding j) as [b|m'|] eqn:Ej; cbn [bind] in Hj;
    [|now apply index_not_Fail in Ej|discriminate].
  destruct (negb _); [left; congruence|discriminate].
Qed.

(** C6 (empty input): [Unpad] fails with the empty-source error exactly
    when its input is the empty slice. *)
Theorem Unpad_empty_iff (src : bytes) :
  Unpad src = Fail errEmpty <-> src = [].
Proof.
  split.
  - intros H. apply Unpad_Fail_cases in H as [[H _]|[_ [H|H]]];
      [assumption|discriminate H|discriminate H].
  - intros ->. reflexivity.
Qed.

(** C3 (validation and result): for a non-empty slice with marker [n],
    [Unpad] fails with a padding error exactly when [n = 0], or
    [n > len(padded)], or one of the last [n] bytes differs from [n];
    otherwise it returns the first [len(padded) - n] bytes. *)
Theorem Unpad_validation (padded : bytes) :
  padded <> [] ->
  is_slice padded ->
  (isInvalidPadding (Unpad padded) = true <-> malformed padded) /\
  (~ malformed padded ->
   Unpad padded = Ret (first_bytes (marker padded) padded)).
Proof.
  intros Hne Hmax.
  assert (0 < len padded) as Hpos
    by (destruct (Z.le_gt_cases (len padded) 0) as [H0|H0];
        [apply len_nil_iff in H0; contradiction | lia]).
  rewrite malformed_dec, (Unpad_nonempty _ Hpos Hmax). cbv zeta.
  destruct (marker padded =? 0); [split; [split; reflexivity | now intros []]|].
  destruct (marker padded >? len padded);
    [split; [split; reflexivity | now intros []]|].
  destruct (forallb _ _); cbn [negb isInvalidPadding].
  - split; [split; discriminate | reflexivity].
  - split; [split; reflexivity | now intros []].
Qed.

Lemma Unpad_validation_witness :
  (isInvalidPadding (Unpad [x07; x03; x02; x03]) = true <->
   malformed [x07; x03; x02; x03]) /\
  (~ malformed [x07; x03; x02; x03] ->
   Unpad [x07; x03; x02; x03] =
   Ret (first_bytes (marker [x07; x03; x02; x03]) [x07; x03; x02; x03])).
Proof.
  apply (Unpad_validation [x07; x03; x02; x03]);
    [discriminate | small_slice].
Defined.

Lemma len_pos (s : bytes) : s <> [] -> 0 < len s.
Proof.
  intros Hne. destruct (Z.le_gt_cases (len s) 0) as [H0|H0]; [|lia].
  apply len_nil_iff in H0. contradiction.
Qed.

(** C4 as the specification words it, refuted: a zero marker and a marker
    larger than the slice are both padding failures, with two different
    message texts. *)
Lemma padding_errors_distinguishable : ~ uniform_padding_error.
Proof.
  intros H.
  specialize (H [x00] [x05] errNoMatch errTooLarge
                eq_refl eq_refl eq_refl eq_refl).
  discriminate H.
Qed.

(** C4 (amended): every failure of one of the three padding checks is a
    padding error, its message starting with ["pkcs7: invalid padding"]; a
    zero marker and a mismatched padding byte give the same message text,
    and a marker larger than the slice gives another text. *)
Theorem Unpad_padding_errors (padded : bytes) :
  padded <> [] ->
  is_slice padded ->
  malformed padded ->
  isInvalidPadding (Unpad padded) = true /\
  Unpad padded =
    Fail (if marker padded >? len padded then errTooLarge else errNoMatch) /\
  errTooLarge <> errNoMatch.
Proof.
  intros Hne Hmax Hbad. apply len_pos in Hne.
  apply malformed_dec in Hbad. revert Hbad.
  rewrite (Unpad_nonempty _ Hne Hmax). cbv zeta.
  destruct (marker padded =? 0) eqn:E0.
  { settle (marker padded >? len padded) as false.
    intros _. repeat split. discriminate. }
  destruct (marker padded >? len padded).
  { intros _. repeat split. discriminate. }
  destruct (forallb _ _); cbn [negb]; [discriminate|].
  intros _. repeat split. discriminate.
Qed.

Lemma Unpad_padding_errors_witness :
  isInvalidPadding (Unpad [x01; x02; x09]) = true /\
  Unpad [x01; x02; x09] =
    Fail (if marker [x01; x02; x09] >? len [x01; x02; x09]
          then errTooLarge else errNoMatch) /\
  errTooLarge <> errNoMatch.
Proof.
  apply (Unpad_padding_errors [x01; x02; x09]);
    [discriminate
    | small_slice
    | right; left; unfold marker, int_of_byte, len; simpl; lia].
Defined.

(** C9 (no fault in [Unpad]): [Unpad] never panics; and once the guards
    have passed (non-empty input, marker [n] in [1, len(src)]),
    [origLen = len(src) - n] is not negative, [src[origLen:]] is a slice
    of [n] bytes, every index [0 .. n-1] is in bounds of it, the loop runs
    its body at these indices only, and the final [src[:origLen]] is in
    bounds too. *)
Theorem Unpad_no_panic (src : bytes) :
  is_slice src ->
  Unpad src <> Panic /\
  (src <> [] -> 1 <= marker src <= len src ->
   let n := marker src in
   let origLen := int_sub (len src) n in
   0 <= origLen /\
   (exists padding,
       slice_from src origLen = Ret padding /\
       len padding = n /\
       forall i, 0 <= i < n -> exists b, index padding i = Ret b) /\
   (forall body body' : Z -> outcome unit,
       (forall i, 0 <= i < n -> body i = body' i) ->
       for_lt n body = for_lt n body') /\
   exists out, slice_to src origLen = Ret out).
Proof.
  intros Hmax. split.
  - destruct src as [|a src]; [discriminate|].
    rewrite Unpad_nonempty by (auto; apply len_pos; discriminate).
    cbv zeta.
    destruct (_ =? 0); [discriminate|].
    destruct (_ >? _); [discriminate|].
    destruct (forallb _ _); discriminate.
  - intros Hne Hn n origLen. unfold is_slice in Hmax.
    assert (origLen = len src - n) as ->
      by (apply wrap_int_small; int_bounds; lia).
    split; [lia|]. split.
    + exists (last_bytes n src).
      split; [apply slice_from_in_bounds; lia|].
      pose proof (len_last_bytes n src ltac:(lia)) as Hl.
      split; [exact Hl|].
      intros i Hi.
      destruct (index_in_bounds (last_bytes n src) i) as (b & _ & Hb);
        [lia | now exists b].
    + split; [|eexists; apply slice_to_in_bounds; lia].
      intros body body' H. apply for_from_ext.
      intros j Hj. apply H. lia.
Qed.

Lemma Unpad_no_panic_witness :
  Unpad [x0a; x02; x02] <> Panic /\
  ([x0a; x02; x02] <> [] ->
   1 <= marker [x0a; x02; x02] <= len [x0a; x02; x02] ->
   let n := marker [x0a; x02; x02] in
   let origLen := int_sub (len [x0a; x02; x02]) n in
   0 <= origLen /\
   (exists padding,
       slice_from [x0a; x02; x02] origLen = Ret padding /\
       len padding = n /\
       forall i, 0 <= i < n -> exists b, index padding i = Ret b) /\
   (forall body body' : Z -> outcome unit,
       (forall i, 0 <= i < n -> body i = body' i) ->
       for_lt n body = for_lt n body') /\
   exists out, slice_to [x0a; x02; x02] origLen = Ret out).
Proof.
  apply (Unpad_no_panic [x0a; x02; x02]).
  small_slice.
Defined.

(** C10 (strict shrinking): when [Unpad] succeeds the marker [n] is at
    least 1 and the output has [n] bytes fewer than the input, so it is
    strictly shorter than the input and is never the input itself. *)
Theorem Unpad_shrinks (src out : bytes) :
  is_slice src ->
  Unpad src = Ret out ->
  1 <= marker src /\
  len out = len src - marker src /\
  len out < len src /\
  out <> src.
Proof.
  intros Hmax H.
  assert (src <> []) as Hne by (intros ->; discriminate H).
  apply len_pos in Hne.
  rewrite (Unpad_nonempty _ Hne Hmax) in H. cbv zeta in H.
  destruct (marker src =? 0) eqn:E0; [discriminate|].
  destruct (marker src >? len src) eqn:E1; [discriminate|].
  destruct (forallb _ _); [|discriminate].
  injection H as <-. pose proof (marker_range src) as Hn.
  assert (len (first_bytes (marker src) src) = len src - marker src) as Hl
    by (unfold first_bytes, len in *; rewrite length_firstn; lia).
  repeat split; try lia.
  intros Heq. rewrite Heq in Hl. lia.
Qed.

Lemma Unpad_shrinks_witness :
  1 <= marker [x41; x42; x01] /\
  len [x41; x42] = len [x41; x42; x01] - marker [x41; x42; x01] /\
  len [x41; x42] < len [x41; x42; x01] /\
  [x41; x42] <> [x41; x42; x01].
Proof.
  apply (Unpad_shrinks [x41; x42; x01] [x41; x42]);
    [small_slice | reflexivity].
Defined.

(** ** Further properties of the two functions *)

Lemma forallb_eq_repeat (c : byte) (l : bytes) :
  forallb (fun b => Byte.eqb b c) l = true -> l = repeat c (List.length l).
Proof.
  induction l as [|a l IH]; cbn [forallb]; [reflexivity|].
  intros H. apply andb_true_iff in H as [Ha Hl].
  apply Byte.byte_dec_bl in Ha. subst a. cbn. f_equal. now apply IH.
Qed.

(** The shape of an input that [Unpad] accepts. *)
Lemma Unpad_Ret_shape (p s : bytes) :
  is_slice p ->
  Unpad p = Ret s ->
  1 <= marker p <= 255 /\
  marker p <= len p /\
  p = s ++ repeat (byte_of_int (marker p)) (Z.to_nat (marker p)).
Proof.
  intros Hmax H.
  assert (p <> []) as Hne by (intros ->; discriminate H).
  apply len_pos in Hne. pose proof (marker_range p) as Hn.
  rewrite (Unpad_nonempty _ Hne Hmax) in H. cbv zeta in H.
  destruct (marker p =? 0) eqn:E0; [discriminate|].
  destruct (marker p >? len p) eqn:E1; [discriminate|].
  destruct (forallb _ _) eqn:Ef; [|discriminate].
  injection H as <-. repeat split; try lia.
  apply forallb_eq_repeat in Ef.
  pose proof (len_last_bytes (marker p) p ltac:(lia)) as Hl.
  replace (Z.to_nat (marker p))
    with (List.length (last_bytes (marker p) p)) by (unfold len in Hl; lia).
  rewrite <- Ef. unfold first_bytes, last_bytes. symmetry.
  apply firstn_skipn.
Qed.

Lemma Pad_Ret_shape (s p : bytes) (blockSize : Z) :
  Pad s blockSize = Ret p ->
  1 <= blockSize <= 255 /\
  p = s ++ repeat (byte_of_int (blockSize - len s mod blockSize))
                  (Z.to_nat (blockSize - len s mod blockSize)).
Proof.
  intros H.
  destruct (Z.lt_ge_cases blockSize 1) as [H1|H1];
    [rewrite Pad_out_of_range in H by lia; discriminate|].
  destruct (Z.lt_ge_cases 255 blockSize) as [H2|H2];
    [rewrite Pad_out_of_range in H by lia; discriminate|].
  split; [lia|]. rewrite Pad_in_range in H by lia. congruence.
Qed.

Lemma marker_suffix (s : bytes) (k : Z) :
  1 <= k <= 255 ->
  marker (s ++ repeat (byte_of_int k) (Z.to_nat k)) = k.
Proof.
  intros Hk. unfold marker. rewrite last_repeat by lia.
  apply int_of_byte_of_int. lia.
Qed.

(** X1 (what [Unpad] accepts): when [Unpad] succeeds on a slice, the input
    is the output followed by [n] copies of the byte [n], where [n], the
    last byte, is between 1 and 255; no other input is accepted. *)
Theorem Unpad_accepts_only_padded (p s : bytes) :
  is_slice p ->
  (Unpad p = Ret s <->
   exists n, 1 <= n <= 255 /\ p = s ++ repeat (byte_of_int n) (Z.to_nat n)).
Proof.
  intros Hmax. split.
  - intros H. exists (marker p).
    destruct (Unpad_Ret_shape p s Hmax H) as (Hn & _ & Hp). now split.
  - intros (n & Hn & ->). now apply Unpad_suffix.
Qed.

Lemma Unpad_accepts_only_padded_witness :
  Unpad [x61; x62; x02; x02] = Ret [x61; x62] <->
  exists n, 1 <= n <= 255 /\
            [x61; x62; x02; x02] =
            [x61; x62] ++ repeat (byte_of_int n) (Z.to_nat n).
Proof.
  apply (Unpad_accepts_only_padded [x61; x62; x02; x02] [x61; x62]).
  small_slice.
Defined.

Lemma padded_len_mod (n blockSize : Z) :
  1 <= blockSize -> (n + (blockSize - n mod blockSize)) mod blockSize = 0.
Proof.
  intros Hb. pose proof (Z_div_mod_eq_full n blockSize) as Hd.
  replace (n + (blockSize - n mod blockSize))
    with ((n / blockSize + 1) * blockSize) by lia.
  apply Z_mod_mult.
Qed.

(** X2 (the padded form, seen from [Unpad]): for a block size in [1,255]
    and a slice [p], [Pad] turns [s] into [p] exactly when [Unpad] turns
    [p] into [s], the length of [p] is a multiple of the block size and the
    last byte of [p] is at most the block size. *)
Theorem Pad_iff_Unpad (s p : bytes) (blockSize : Z) :
  1 <= blockSize <= 255 ->
  is_slice p ->
  (Pad s blockSize = Ret p <->
   Unpad p = Ret s /\ len p mod blockSize = 0 /\ marker p <= blockSize).
Proof.
  intros Hb Hmax. split.
  - intros H. apply Pad_Ret_shape in H as [_ Hp].
    pose proof (padLen_range (len s) blockSize (len_nonneg s) ltac:(lia))
      as Hk.
    set (k := blockSize - len s mod blockSize) in *. subst p.
    split; [apply Unpad_suffix; [lia | assumption]|].
    rewrite marker_suffix by lia. split; [|lia].
    rewrite len_app, len_repeat, Z2Nat.id by lia.
    apply padded_len_mod. lia.
  - intros (Hu & Hm & Hle).
    destruct (Unpad_Ret_shape p s Hmax Hu) as (Hn & _ & Hp).
    set (n := marker p) in *.
    assert (len p = len s + n) as Hl
      by (rewrite Hp at 1; rewrite len_app, len_repeat; lia).
    assert (blockSize - n = len s mod blockSize) as Hr.
    { apply (Z.mod_unique _ _ (len p / blockSize - 1)); [left; lia|].
      pose proof (Z_div_mod_eq_full (len p) blockSize). lia. }
    rewrite Pad_in_range by assumption. rewrite <- Hr.
    replace (blockSize - (blockSize - n)) with n by lia.
    f_equal. symmetry. exact Hp.
Qed.

Lemma Pad_iff_Unpad_witness :
  Pad [x61; x62; x63] 4 = Ret [x61; x62; x63; x01] <->
  Unpad [x61; x62; x63; x01] = Ret [x61; x62; x63] /\
  len [x61; x62; x63; x01] mod 4 = 0 /\
  marker [x61; x62; x63; x01] <= 4.
Proof.
  apply (Pad_iff_Unpad [x61; x62; x63] [x61; x62; x63; x01] 4);
    [lia | small_slice].
Defined.

(** X3 ([Pad] loses nothing): two sources that [Pad] turns into the same
    slice are equal, even when the two block sizes differ. *)
Theorem Pad_injective (s s' p : bytes) (blockSize blockSize' : Z) :
  Pad s blockSize = Ret p ->
  Pad s' blockSize' = Ret p ->
  s = s'.
Proof.
  intros H H'.
  apply Pad_Ret_shape in H as [Hb Hp]. apply Pad_Ret_shape in H' as [Hb' Hp'].
  pose proof (padLen_range (len s) blockSize (len_nonneg s) ltac:(lia)) as Hk.
  pose proof (padLen_range (len s') blockSize' (len_nonneg s') ltac:(lia))
    as Hk'.
  set (k := blockSize - len s mod blockSize) in *.
  set (k' := blockSize' - len s' mod blockSize') in *.
  assert (k = k') as <-.
  { rewrite <- (marker_suffix s k), <- (marker_suffix s' k') by lia.
    congruence. }
  rewrite Hp in Hp'. now apply app_inv_tail in Hp'.
Qed.

Lemma Pad_injective_witness :
  Pad [x61; x62] 4 = Ret [x61; x62; x02; x02] /\
  Pad [x61; x62] 2 = Ret [x61; x62; x02; x02] /\
  [x61; x62] = [x61; x62].
Proof.
  split; [reflexivity|]. split; [reflexivity|].
  apply (Pad_injective [x61; x62] [x61; x62] [x61; x62; x02; x02] 4 2);
    reflexivity.
Defined.

(** X4 ([Pad] is safe): [Pad] never panics, whatever the source and the
    block size (the remainder is never taken by zero and [bytes.Repeat]
    never gets a negative count), and the only error it returns is the
    block-size error. *)
Theorem Pad_never_panics (s : bytes) (blockSize : Z) :
  Pad s blockSize <> Panic /\
  (forall msg, Pad s blockSize = Fail msg -> msg = errBlockSize).
Proof.
  destruct (Z.lt_ge_cases blockSize 1) as [H1|H1];
    [rewrite Pad_out_of_range by lia; split;
     [discriminate | intros msg H; now injection H]|].
  destruct (Z.lt_ge_cases 255 blockSize) as [H2|H2];
    [rewrite Pad_out_of_range by lia; split;
     [discriminate | intros msg H; now injection H]|].
  rewrite Pad_in_range by lia. split; [discriminate|]. intros msg H.
  discriminate H.
Qed.

(** X5 (only the end of the input matters): bytes put in front of a slice
    that [Unpad] accepts do not change the verdict, and they come out in
    front of the result. *)
Theorem Unpad_prepend (u p s : bytes) :
  is_slice (u ++ p) ->
  Unpad p = Ret s ->
  Unpad (u ++ p) = Ret (u ++ s).
Proof.
  intros Hmax H.
  assert (is_slice p) as Hp'
    by (unfold is_slice in *; rewrite len_app in Hmax;
        pose proof (len_nonneg u); lia).
  destruct (Unpad_Ret_shape p s Hp' H) as (Hn & _ & Hp).
  remember (marker p) as n eqn:En. clear En H Hp'.
  subst p. rewrite app_assoc in *. now apply Unpad_suffix.
Qed.

Lemma Unpad_prepend_witness :
  Unpad ([x10; x20] ++ [x61; x01]) = Ret ([x10; x20] ++ [x61]).
Proof.
  apply (Unpad_prepend [x10; x20] [x61; x01] [x61]);
    [small_slice | reflexivity].
Defined.

(** X6 (how much [Pad] adds): for a block size in [1,255] the padded
    length is the least multiple of the block size that is greater than the
    length of the source; at most one block is added. *)
Theorem Pad_next_multiple (s : bytes) (blockSize : Z) :
  1 <= blockSize <= 255 ->
  exists out,
    Pad s blockSize = Ret out /\
    len out = (len s / blockSize + 1) * blockSize /\
    len out <= len s + blockSize /\
    (forall m, m mod blockSize = 0 -> len s < m -> len out <= m).
Proof.
  intros Hb. eexists. split; [now apply Pad_in_range|].
  pose proof (padLen_range (len s) blockSize (len_nonneg s) ltac:(lia)) as Hp.
  rewrite len_app, len_repeat, Z2Nat.id by lia.
  pose proof (Z_div_mod_eq_full (len s) blockSize) as Hd.
  pose proof (Z.mod_pos_bound (len s) blockSize ltac:(lia)) as Hr.
  split; [lia|]. split; [lia|].
  intros m Hm Hlt.
  pose proof (Z_div_mod_eq_full m blockSize) as Hdm. rewrite Hm in Hdm.
  assert (len s / blockSize < m / blockSize) by nia. nia.
Qed.

Lemma Pad_next_multiple_witness :
  exists out,
    Pad [x61; x62; x63; x64; x65] 4 = Ret out /\
    len out = (len [x61; x62; x63; x64; x65] / 4 + 1) * 4 /\
    len out <= len [x61; x62; x63; x64; x65] + 4 /\
    (forall m, m mod 4 = 0 -> len [x61; x62; x63; x64; x65] < m ->
               len out <= m).
Proof. apply (Pad_next_multiple [x61; x62; x63; x64; x65] 4). lia. Defined.

(** *** One byte of a padded slice replaced *)

Lemma firstn_of_repeat (c : byte) : forall n m : nat,
  (n <= m)%nat -> firstn n (repeat c m) = repeat c n.
Proof.
  induction n as [|n IH]; intros [|m] H; cbn; try reflexivity; [lia|].
  f_equal. apply IH. lia.
Qed.

Lemma skipn_of_repeat (c : byte) : forall n m : nat,
  skipn n (repeat c m) = repeat c (m - n).
Proof.
  induction n as [|n IH]; intros [|m]; cbn; try reflexivity. apply IH.
Qed.

Lemma last_app_nonempty (s t : bytes) :
  t <> [] -> List.last (s ++ t) x00 = List.last t x00.
Proof.
  intros Ht. destruct (exists_last Ht) as (t' & a & ->).
  now rewrite app_assoc, !last_last.
Qed.

(** A slice whose last [k] bytes end in the byte [k] but are not all that
    byte is refused with the mismatch message. *)
Lemma Unpad_bad_padding (s pad : bytes) (k : Z) :
  1 <= k <= 255 ->
  len pad = k ->
  List.last pad x00 = byte_of_int k ->
  forallb (fun b => Byte.eqb b (byte_of_int k)) pad = false ->
  is_slice (s ++ pad) ->
  Unpad (s ++ pad) = Fail errNoMatch.
Proof.
  intros Hk Hl Hlast Hbad Hmax. pose proof (len_nonneg s) as Hs.
  assert (pad <> []) as Hne by (intros ->; cbn in Hl; lia).
  assert (marker (s ++ pad) = k) as Hm.
  { unfold marker. rewrite last_app_nonempty, Hlast by assumption.
    apply int_of_byte_of_int. lia. }
  rewrite Unpad_nonempty by (auto; rewrite len_app; lia).
  cbv zeta. rewrite Hm, len_app, Hl.
  settle (k =? 0) as false. settle (k >? len s + k) as false.
  unfold last_bytes. rewrite len_app, Hl.
  replace (Z.to_nat (len s + k - k)) with (List.length s)
    by (unfold len; lia).
  rewrite skipn_app, skipn_all, Nat.sub_diag, skipn_O. cbn [app].
  now rewrite Hbad.
Qed.

Lemma set_byte_padding (s : bytes) (c b : byte) (k : nat) (j : Z) :
  len s <= j < len s + Z.of_nat k ->
  set_byte (s ++ repeat c k) j b =
  s ++ (repeat c (Z.to_nat (j - len s)) ++
        b :: repeat c (k - 1 - Z.to_nat (j - len s))).
Proof.
  intros Hj. unfold set_byte, len in *.
  rewrite firstn_app, skipn_app.
  rewrite (@firstn_all2 _ _ s), (@skipn_all2 _ _ s) by lia. cbn [app].
  rewrite firstn_of_repeat, skipn_of_repeat by lia.
  replace (Z.to_nat (j - Z.of_nat (List.length s)))
    with (Z.to_nat j - List.length s)%nat by lia.
  replace (k - (Z.to_nat (j + 1) - List.length s))%nat
    with (k - 1 - (Z.to_nat j - List.length s))%nat by lia.
  now rewrite <- app_assoc.
Qed.

Lemma set_byte_data (s t : bytes) (b : byte) (j : Z) :
  0 <= j < len s ->
  set_byte (s ++ t) j b = set_byte s j b ++ t /\
  len (set_byte s j b) = len s.
Proof.
  intros Hj. unfold set_byte, len in *. split.
  - rewrite firstn_app, skipn_app.
    replace (Z.to_nat j - List.length s)%nat with 0%nat by lia.
    replace (Z.to_nat (j + 1) - List.length s)%nat with 0%nat by lia.
    cbn [firstn skipn]. rewrite app_nil_r, <- app_assoc. reflexivity.
  - rewrite length_app. cbn [List.length].
    rewrite length_firstn, length_skipn. lia.
Qed.

(** X7 (a changed padding byte is caught): in a slice made by [Pad],
    replacing any padding byte other than the last one by a different byte
    makes [Unpad] fail with the mismatch message. *)
Theorem Unpad_detects_padding_change
  (s p : bytes) (blockSize j : Z) (b : byte) :
  Pad s blockSize = Ret p ->
  is_slice p ->
  len s <= j < len p - 1 ->
  index p j <> Ret b ->
  Unpad (set_byte p j b) = Fail errNoMatch.
Proof.
  intros H Hmax Hj Hb. apply Pad_Ret_shape in H as [Hbs Hp].
  pose proof (len_nonneg s) as Hs.
  pose proof (padLen_range (len s) blockSize (len_nonneg s) ltac:(lia)) as Hk.
  set (k := blockSize - len s mod blockSize) in *.
  set (c := byte_of_int k) in *.
  assert (len p = len s + k) as Hl
    by (rewrite Hp, len_app, len_repeat; lia).
  assert (b <> c) as Hbc.
  { intros ->. apply Hb.
    destruct (index_in_bounds p j) as (a & Ha & ->); [lia|].
    f_equal. rewrite Hp, nth_error_app2 in Ha by (unfold len in *; lia).
    rewrite nth_error_repeat in Ha by (unfold len in *; lia). congruence. }
  assert (is_slice (set_byte p j b)) as Hmax'.
  { unfold is_slice, set_byte, len in *. rewrite length_app.
    cbn [List.length]. rewrite length_firstn, length_skipn. lia. }
  revert Hmax'. rewrite Hp, set_byte_padding by lia. intros Hmax'.
  remember (Z.to_nat (j - len s)) as i eqn:Ei.
  apply (Unpad_bad_padding _ _ k); trivial; try lia.
  - unfold len. rewrite length_app. cbn [List.length].
    rewrite !repeat_length. lia.
  - change (b :: repeat c (Z.to_nat k - 1 - i))
      with ([b] ++ repeat c (Z.to_nat k - 1 - i)).
    rewrite app_assoc. apply last_repeat. lia.
  - rewrite forallb_app. cbn [forallb]. fold c.
    destruct (Byte.eqb b c) eqn:E; [apply Byte.byte_dec_bl in E; tauto|].
    cbn [andb]. apply andb_false_r.
Qed.

Lemma Unpad_detects_padding_change_witness :
  Unpad (set_byte [x61; x03; x03; x03] 2 x07) = Fail errNoMatch.
Proof.
  apply (Unpad_detects_padding_change [x61] [x61; x03; x03; x03] 4 2 x07);
    [reflexivity | small_slice | unfold len; simpl; lia | discriminate].
Defined.

(** X8 (a changed data byte is not caught): in a slice made by [Pad],
    replacing a byte of the source part leaves the padding valid; [Unpad]
    succeeds and returns the source with that byte replaced. *)
Theorem Unpad_passes_data_change
  (s p : bytes) (blockSize j : Z) (b : byte) :
  Pad s blockSize = Ret p ->
  is_slice p ->
  0 <= j < len s ->
  Unpad (set_byte p j b) = Ret (set_byte s j b).
Proof.
  intros H Hmax Hj. apply Pad_Ret_shape in H as [Hbs Hp].
  pose proof (padLen_range (len s) blockSize (len_nonneg s) ltac:(lia)) as Hk.
  set (k := blockSize - len s mod blockSize) in *.
  subst p. destruct (set_byte_data s (repeat (byte_of_int k) (Z.to_nat k))
                       b j Hj) as [-> Hl].
  apply Unpad_suffix; [lia|].
  unfold is_slice in *. rewrite len_app in *. lia.
Qed.

Lemma Unpad_passes_data_change_witness :
  Unpad (set_byte [x61; x62; x02; x02] 1 x7a) = Ret (set_byte [x61; x62] 1 x7a).
Proof.
  apply (Unpad_passes_data_change [x61; x62] [x61; x62; x02; x02] 4 1 x7a);
    [reflexivity | small_slice | unfold len; simpl; lia].
Defined.

(** X9 (the shortest input): a one-byte slice is accepted only when the
    byte is [0x01], and then gives the empty slice; the byte [0x00] gives
    the mismatch message and any other byte the too-large message. *)
Theorem Unpad_one_byte (b : byte) :
  Unpad [b] =
  if int_of_byte b =? 1 then Ret []
  else if int_of_byte b =? 0 then Fail errNoMatch
  else Fail errTooLarge.
Proof. destruct b; reflexivity. Qed.

(** ** The package's tests *)

(** X10 (the tests pass): run on the table [padTests], [TestPad] and
    [TestUnpad] end without a panic and without a single [t.Errorf]. *)
Theorem tests_pass : TestPad = Ret [] /\ TestUnpad = Ret [].
Proof. split; vm_compute; reflexivity. Qed.
